(** * The alias type converter of typedoc ([src/lib/converter/types/alias.ts])

    A shallow embedding of [AliasConverter.supportsNode] and
    [AliasConverter.convertNode], with the JavaScript string and array
    primitives they call, and the properties of the converter proved on it. *)

From Stdlib Require Import List ZArith NArith Lia Bool Ascii String.
Import ListNotations.

Set Implicit Arguments.

(** ** JavaScript strings and arrays

    A JavaScript string is a sequence of UTF-16 code units.  The pattern
    of [supportsNode] has no [u] flag, so it works on code units as well. *)

Module Js.

Definition char := N.
Definition string := list char.

(** Code units of an ASCII literal, for examples. *)
Definition of_string (s : String.string) : string :=
  List.map N_of_ascii (list_ascii_of_string s).

Definition QUOTATION_MARK : char := 34%N.
Definition FULL_STOP : char := 46%N.

(** [LineTerminator] of ECMAScript: LF, CR, LS and PS. *)
Definition isLineTerminator (c : char) : bool :=
  (c =? 10)%N || (c =? 13)%N || (c =? 8232)%N || (c =? 8233)%N.

(** [s === t] on strings. *)
Fixpoint string_eqb (s t : string) : bool :=
  match s, t with
  | [], [] => true
  | c :: s', d :: t' => (c =? d)%N && string_eqb s' t'
  | _, _ => false
  end.

(** [s.split(sep)] for a separator of one code unit: the pieces between
    the separators, [[""]] for the empty string. *)
Fixpoint split (sep : char) (s : string) : list string :=
  match s with
  | [] => [[]]
  | c :: t =>
      if (c =? sep)%N then [] :: split sep t
      else match split sep t with
           | w :: ws => (c :: w) :: ws
           | [] => [[c]]
           end
  end.

(** [a.join(sep)] on an array of strings. *)
Fixpoint join (sep : char) (a : list string) : string :=
  match a with
  | [] => []
  | [w] => w
  | w :: ws => w ++ sep :: join sep ws
  end.

(** [a.length] and [Math.min] on lengths. *)
Definition length {A : Type} (a : list A) : Z := Z.of_nat (List.length a).

(** [a.slice(start)]: a negative [start] counts from the end, and is
    clamped to the array; [-0] is [0], the whole array. *)
Definition slice {A : Type} (start : Z) (a : list A) : list A :=
  let len := length a in
  let k := if (start <? 0)%Z then Z.max (len + start) 0 else Z.min start len in
  skipn (Z.to_nat k) a.

End Js.

(** ** The pattern [/".*"\./] of [supportsNode]

    [fqn.replace(/".*"\./, '')] removes the first match of the pattern: a
    quotation mark, as many code units other than line terminators as
    possible, a quotation mark and a full stop. *)

Module FqnPattern.
Import Js.

(** The pattern after its opening quotation mark, matched at the head
    of [s] by backtracking: [.*] first takes the next code unit (when it
    is no line terminator) and only when the rest then fails to match
    stops here, where [s] has to start with a quotation mark and a full
    stop.  The result is what follows the match. *)
Fixpoint match_tail (s : string) : option string :=
  match s with
  | [] => None
  | c :: t =>
      if isLineTerminator c then None
      else match match_tail t with
           | Some rest => Some rest
           | None =>
               if (c =? QUOTATION_MARK)%N then
                 match t with
                 | d :: rest => if (d =? FULL_STOP)%N then Some rest else None
                 | [] => None
                 end
               else None
           end
  end.

(** [s.replace(/".*"\./, '')]: the match is tried at each position from
    the left, and the first one that succeeds is cut out. *)
Fixpoint replace (s : string) : string :=
  match s with
  | [] => []
  | c :: t =>
      if (c =? QUOTATION_MARK)%N then
        match match_tail t with
        | Some rest => rest
        | None => c :: replace t
        end
      else c :: replace t
  end.

End FqnPattern.

(** ** Completions

    A call either returns normally or throws.  The one exception the
    converter itself can raise is the [TypeError] of reading a property
    of [undefined]. *)

Inductive JsError : Type := TypeError.

Inductive Completion (A : Type) : Type :=
| Normal (a : A)
| Throw (e : JsError).

Arguments Throw {A} e.

(** ** The converter *)

Section Model.

(** Values of the TypeScript compiler API and of the documentation
    model, opaque to the converter: symbols, identifier nodes, the nodes
    of type arguments, resolved types, converted types, and the state of
    the conversion [Context]. *)
Variables Symbol Identifier TypeNode TsType ModelType Context : Type.

(** [ts.EntityName]: an identifier or a qualified name [left.right]. *)
Inductive EntityName : Type :=
| IdentifierName (i : Identifier)
| QualifiedName (left : EntityName) (right : Identifier).

(** [ts.TypeReferenceNode], as [supportsNode] treats it: [typeName] is
    tested for presence, [typeArguments] is optional. *)
Record TypeReferenceNode : Type := {
  typeName : option EntityName;
  typeArguments : option (list TypeNode)
}.

(** Modelled from the spec: the class [ReferenceType] of the models
    directory, which [alias.ts] imports and does not define.  Its fields are
    the surface name, the resolution target (a fully-qualified name or
    the sentinel) and the converted type arguments, which the
    constructor leaves unset. *)
Record ReferenceType : Type := {
  ref_name : Js.string;
  ref_resolutionTarget : Js.string;
  ref_typeArguments : option (list ModelType)
}.

(** What the converter calls and does not define: the accessors of the
    compiler API, the methods of [Context], [convertTypes] of the owning
    converter and the sentinel constant of [ReferenceType].  They are
    taken as total functions; the three lookups read the context, and
    [saveRemainingSymbolReflection] and [convertTypes] change it. *)
Record Collaborators : Type := {
  symbol : TsType -> option Symbol;
  getText : EntityName -> Js.string;
  getSymbolAtLocation : Context -> Identifier -> option Symbol;
  resolveAliasedSymbol : Context -> option Symbol -> option Symbol;
  getFullyQualifiedName : Context -> Symbol -> Js.string;
  saveRemainingSymbolReflection : Js.string -> Symbol -> Context -> Context;
  convertTypes : list TypeNode -> Context -> list ModelType * Context;
  SYMBOL_FQN_RESOLVE_BY_NAME : Js.string
}.

Variable W : Collaborators.

(** *** The monad of a conversion: the context is threaded through, and
    a throw ends the computation. *)

Definition M (A : Type) : Type := Context -> Completion (A * Context).

Definition ret {A : Type} (a : A) : M A := fun c => Normal (a, c).

Definition throw {A : Type} (e : JsError) : M A := fun _ => Throw e.

Definition bind {A B : Type} (m : M A) (k : A -> M B) : M B :=
  fun c =>
    match m c with
    | Normal (a, c') => k a c'
    | Throw e => Throw e
    end.

Notation "x <- m ;; k" := (bind m (fun x => k))
  (at level 61, m at next level, right associativity).

Definition ctx_getSymbolAtLocation (identifier : Identifier) : M (option Symbol) :=
  fun c => Normal (getSymbolAtLocation W c identifier, c).

Definition ctx_resolveAliasedSymbol (s : option Symbol) : M (option Symbol) :=
  fun c => Normal (resolveAliasedSymbol W c s, c).

Definition ctx_getFullyQualifiedName (s : Symbol) : M Js.string :=
  fun c => Normal (getFullyQualifiedName W c s, c).

Definition ctx_saveRemainingSymbolReflection (fqn : Js.string) (s : Symbol) : M unit :=
  fun c => Normal (tt, saveRemainingSymbolReflection W fqn s c).

Definition owner_convertTypes (nodes : list TypeNode) : M (list ModelType) :=
  fun c => Normal (convertTypes W nodes c).

(** *** [supportsNode] *)

(** Lines 37 and 42: the two qualified-name sequences. *)
Definition symbolNameOf (fqn : Js.string) : list Js.string :=
  Js.split Js.FULL_STOP (FqnPattern.replace fqn).

Definition nodeNameOf (text : Js.string) : list Js.string :=
  Js.split Js.FULL_STOP text.

(** Lines 38 to 51, on the two sequences: the two length guards and the
    right-aligned comparison. *)
Definition namesDiffer (symbolName nodeName : list Js.string) : bool :=
  if (Js.length symbolName =? 0)%Z then false
  else if (Js.length nodeName =? 0)%Z then false
  else
    let common := Z.min (Js.length symbolName) (Js.length nodeName) in
    let symbolName := Js.slice (- common) symbolName in
    let nodeName := Js.slice (- common) nodeName in
    negb (Js.string_eqb (Js.join Js.FULL_STOP nodeName)
                        (Js.join Js.FULL_STOP symbolName)).

Definition supportsNode (node : option TypeReferenceNode) (type : option TsType)
  : M bool :=
  match type, node with
  | Some type, Some node =>
      match typeName node with
      | Some typeName =>
          match symbol W type with
          | None => ret true
          | Some sym =>
              fqn <- ctx_getFullyQualifiedName sym ;;
              ret (namesDiffer (symbolNameOf fqn) (nodeNameOf (getText W typeName)))
          end
      | None => ret false
      end
  | _, _ => ret false
  end.

(** *** [convertNode] *)

(** Line 74: the identifier whose symbol is looked up. *)
Definition identifierOf (typeName : EntityName) : Identifier :=
  match typeName with
  | QualifiedName _ rightName => rightName
  | IdentifierName i => i
  end.

Definition convertNode (node : TypeReferenceNode) : M ReferenceType :=
  match typeName node with
  | None => throw TypeError
  | Some typeName =>
      let name := getText W typeName in
      let identifier := identifierOf typeName in
      symbol <- ctx_getSymbolAtLocation identifier ;;
      resolved <- ctx_resolveAliasedSymbol symbol ;;
      FQN <- match resolved with
             | Some r => ctx_getFullyQualifiedName r
             | None => ret (SYMBOL_FQN_RESOLVE_BY_NAME W)
             end ;;
      let result := {| ref_name := name;
                       ref_resolutionTarget := FQN;
                       ref_typeArguments := None |} in
      _ <- match resolved with
           | Some r => ctx_saveRemainingSymbolReflection FQN r
           | None => ret tt
           end ;;
      match typeArguments node with
      | Some args =>
          converted <- owner_convertTypes args ;;
          ret {| ref_name := ref_name result;
                 ref_resolutionTarget := ref_resolutionTarget result;
                 ref_typeArguments := Some converted |}
      | None => ret result
      end
  end.

(** *** The converter as the registry sees it *)

(** Modelled from the spec: a converter registration of the registry
    (capability predicate, priority, conversion function), the interface
    [TypeNodeConverter] of the components file, which [alias.ts] imports
    and does not define.  The registry hands both functions the context,
    the node and the resolved type. *)
Record TypeNodeConverter : Type := {
  priority : Z;
  tnc_supportsNode : option TypeReferenceNode -> option TsType -> M bool;
  tnc_convertNode : TypeReferenceNode -> option TsType -> M ReferenceType
}.

(** [AliasConverter]: its [convertNode] declares no parameter for the
    type, so the third argument of a call is dropped. *)
Definition AliasConverter : TypeNodeConverter := {|
  priority := 100;
  tnc_supportsNode := supportsNode;
  tnc_convertNode := fun node _ => convertNode node
|}.

(** *** Words of the specification *)

(** The target symbol of a conversion: the symbol at the lookup
    identifier, resolved through alias indirection. *)
Definition resolvedTarget (c : Context) (identifier : Identifier) : option Symbol :=
  resolveAliasedSymbol W c (getSymbolAtLocation W c identifier).

(** The resolution target for a target symbol, or for none. *)
Definition targetName (c : Context) (target : option Symbol) : Js.string :=
  match target with
  | Some s => getFullyQualifiedName W c s
  | None => SYMBOL_FQN_RESOLVE_BY_NAME W
  end.

(** The context after the registration of the target symbol, when there
    is one. *)
Definition afterRegistration (c : Context) (identifier : Identifier) : Context :=
  match resolvedTarget c identifier with
  | Some s => saveRemainingSymbolReflection W (getFullyQualifiedName W c s) s c
  | None => c
  end.

(** The context after the owner converted the type arguments of the
    node, when it has any, and what the owner returned for them. *)
Definition afterTypeArguments (node : TypeReferenceNode) (c : Context) : Context :=
  match typeArguments node with
  | Some args => snd (convertTypes W args c)
  | None => c
  end.

Definition convertedTypeArguments (node : TypeReferenceNode) (c : Context)
  : option (list ModelType) :=
  match typeArguments node with
  | Some args => Some (fst (convertTypes W args c))
  | None => None
  end.

(** The lookups answer the same in two states of the context. *)
Definition sameAnswers (c c' : Context) : Prop :=
  (forall i, getSymbolAtLocation W c i = getSymbolAtLocation W c' i) /\
  (forall s, resolveAliasedSymbol W c s = resolveAliasedSymbol W c' s) /\
  (forall s, getFullyQualifiedName W c s = getFullyQualifiedName W c' s).

End Model.

Arguments IdentifierName {Identifier} i.
Arguments Build_TypeReferenceNode {Identifier TypeNode} typeName typeArguments.
Arguments Build_ReferenceType {ModelType} ref_name ref_resolutionTarget ref_typeArguments.

(** The trailing [k] segments of a qualified-name sequence. *)
Definition trailing {A : Type} (k : nat) (l : list A) : list A :=
  skipn (List.length l - k) l.

(** The specification's reading of the stripping: a leading quoted
    segment, from the quotation mark that opens the name to the next
    quotation mark, is removed with the full stop after it; a name that
    does not start this way is left as it is. *)
Module LeadingSegment.
Import Js.

Fixpoint afterClosingQuote (s : string) : option string :=
  match s with
  | [] => None
  | c :: t =>
      if (c =? QUOTATION_MARK)%N then
        match t with
        | d :: rest => if (d =? FULL_STOP)%N then Some rest else None
        | [] => None
        end
      else afterClosingQuote t
  end.

Definition strip (fqn : string) : string :=
  match fqn with
  | c :: t =>
      if (c =? QUOTATION_MARK)%N then
        match afterClosingQuote t with
        | Some rest => rest
        | None => fqn
        end
      else fqn
  | [] => []
  end.

End LeadingSegment.

(** [a] is [b], or ends with a full stop and [b]: read as qualified
    names, [b] is [a] without some outer qualification. *)
Definition dotSuffix (a b : Js.string) : Prop :=
  a = b \/ exists p, a = p ++ Js.FULL_STOP :: b.

(** Segments without a full stop, as a split returns them. *)
Definition dotFree (a : list Js.string) : Prop :=
  Forall (fun w => ~ In Js.FULL_STOP w) a.

Definition notLineTerminator (c : Js.char) : Prop := Js.isLineTerminator c = false.

(** A match of the pattern in [s]: [s] is [pre], a quotation mark, [mid]
    free of line terminators, a quotation mark, a full stop and [post]. *)
Definition isMatch (s pre mid post : Js.string) : Prop :=
  s = pre ++ Js.QUOTATION_MARK :: mid ++ Js.QUOTATION_MARK :: Js.FULL_STOP :: post /\
  Forall notLineTerminator mid.

(** ** A small program to run the converter on

    Type names are written as text; [RealClass] is declared in module
    [mod], [Alias] is an alias of it and [MyNumber] an alias of a
    primitive type.  The queue of the context is keyed by fully-qualified
    name. *)

Module Demo.

Definition Symbol := nat.
Definition Identifier := String.string.
Definition TypeNode := String.string.
Definition TsType := option Symbol.
Definition ModelType := Js.string.
Definition Context := list (Js.string * Symbol).

Definition quoted (s : String.string) : Js.string :=
  Js.QUOTATION_MARK :: Js.of_string s ++ [Js.QUOTATION_MARK].

Definition realClass : Symbol := 1.
Definition aliasSymbol : Symbol := 2.
Definition myNumber : Symbol := 3.

Fixpoint getText (n : EntityName Identifier) : Js.string :=
  match n with
  | IdentifierName i => Js.of_string i
  | QualifiedName l r => getText l ++ Js.FULL_STOP :: Js.of_string r
  end.

Definition getSymbolAtLocation (_ : Context) (i : Identifier) : option Symbol :=
  if String.eqb i "RealClass" then Some realClass
  else if String.eqb i "Alias" then Some aliasSymbol
  else if String.eqb i "MyNumber" then Some myNumber
  else None.

Definition resolveAliasedSymbol (_ : Context) (s : option Symbol) : option Symbol :=
  match s with
  | Some 2 => Some realClass
  | Some 3 => None
  | other => other
  end.

Definition getFullyQualifiedName (_ : Context) (s : Symbol) : Js.string :=
  match s with
  | 1 => quoted "mod" ++ Js.of_string ".NS.RealClass"
  | 2 => quoted "mod" ++ Js.of_string ".Alias"
  | _ => quoted "mod" ++ Js.of_string ".MyNumber"
  end.

(** Modelled from the spec: the deferred-reflection queue of the
    [Context] class, which [alias.ts] imports and does not define.  A
    registration appends the pair unless the fully-qualified name is
    queued already. *)
Definition saveRemainingSymbolReflection (fqn : Js.string) (s : Symbol)
    (c : Context) : Context :=
  if existsb (fun e => Js.string_eqb (fst e) fqn) c then c else c ++ [(fqn, s)].

Definition convertTypes (nodes : list TypeNode) (c : Context)
  : list ModelType * Context :=
  (List.map Js.of_string nodes, c).

Definition world : Collaborators Symbol Identifier TypeNode TsType ModelType Context :=
  Build_Collaborators
    (fun t : TsType => t)
    getText
    getSymbolAtLocation
    resolveAliasedSymbol
    getFullyQualifiedName
    saveRemainingSymbolReflection
    convertTypes
    (Js.of_string "-2").

Definition node (n : EntityName Identifier) (args : option (list TypeNode))
  : TypeReferenceNode Identifier TypeNode :=
  Build_TypeReferenceNode (Some n) args.

Definition nameless : TypeReferenceNode Identifier TypeNode :=
  Build_TypeReferenceNode None None.

(** [let x: Alias], [let x: RealClass], [let x: NS.RealClass<T>] and
    [let x: MyNumber]. *)
Definition aliasUse := node (IdentifierName "Alias"%string) None.
Definition directUse := node (IdentifierName "RealClass"%string) None.
Definition qualifiedUse :=
  node (QualifiedName (IdentifierName "NS"%string) "RealClass"%string)
       (Some ["T"%string]).
Definition numberUse := node (IdentifierName "MyNumber"%string) None.

(** Two names with more than a leading quoted segment:
    ["a".B."c".D] and [A."b".C]. *)
Definition twoQuoted : Js.string :=
  quoted "a" ++ Js.of_string ".B." ++ quoted "c" ++ Js.of_string ".D".
Definition innerQuoted : Js.string :=
  Js.of_string "A." ++ quoted "b" ++ Js.of_string ".C".

End Demo.

(** The small program with a symbol whose fully-qualified name is the
    empty string, and a use site whose type name has no text. *)

Module EmptyNames.


Definition getFullyQualifiedName (c : Demo.Context) (s : Demo.Symbol) : Js.string :=
  match s with
  | 0 => []
  | _ => Demo.getFullyQualifiedName c s
  end.

Definition world
  : Collaborators Demo.Symbol Demo.Identifier Demo.TypeNode Demo.TsType
                  Demo.ModelType Demo.Context :=
  Build_Collaborators
    (fun t : Demo.TsType => t)
    Demo.getText
    Demo.getSymbolAtLocation
    Demo.resolveAliasedSymbol
    getFullyQualifiedName
    Demo.saveRemainingSymbolReflection
    Demo.convertTypes
    (Js.of_string "-2").


End EmptyNames.

(** ** Facts about the string and array primitives *)

Module JsFacts.
Import Js.

Lemma string_eqb_eq (s t : string) : string_eqb s t = true <-> s = t.
Proof.
  revert t; induction s as [|c s IH]; intros [|d t]; simpl; split; intro H;
    try easy.
  - apply andb_prop in H as [Hc Hs].
    apply N.eqb_eq in Hc. apply IH in Hs. now subst.
  - inversion H; subst. rewrite N.eqb_refl. now apply IH.
Qed.

Lemma string_eqb_neq (s t : string) : string_eqb s t = false <-> s <> t.
Proof.
  rewrite <- string_eqb_eq. destruct (string_eqb s t); split; congruence.
Qed.

(** [split] never returns the empty array. *)
Lemma split_nonempty (sep : char) (s : string) : split sep s <> [].
Proof.
  destruct s as [|c t]; simpl; [easy|].
  destruct (c =? sep)%N; [easy|]. destruct (split sep t); easy.
Qed.


(** No piece of a split contains the separator. *)
Lemma split_no_sep (sep : char) (s : string) :
  Forall (fun w => ~ In sep w) (split sep s).
Proof.
  induction s as [|c t IH]; simpl.
  - constructor; [intros []|constructor].
  - destruct (N.eqb_spec c sep) as [->|Hne].
    + constructor; [intros []|exact IH].
    + destruct (split sep t) as [|w ws].
      * constructor; [|constructor]. intros [H|[]]. congruence.
      * inversion IH; subst. constructor; [|assumption].
        intros [H|H]; [congruence|auto].
Qed.

Lemma join_cons (sep : char) (w : string) (ws : list string) :
  ws <> [] -> join sep (w :: ws) = w ++ sep :: join sep ws.
Proof. destruct ws; [easy|reflexivity]. Qed.

Lemma join_push (sep c : char) (w : string) (ws : list string) :
  join sep ((c :: w) :: ws) = c :: join sep (w :: ws).
Proof. destruct ws; reflexivity. Qed.

(** Joining the pieces of a split gives the string back. *)
Lemma join_split (sep : char) (s : string) : join sep (split sep s) = s.
Proof.
  induction s as [|c t IH]; simpl; [reflexivity|].
  destruct (N.eqb_spec c sep) as [->|Hne].
  - rewrite join_cons by apply split_nonempty. simpl. now rewrite IH.
  - pose proof (split_nonempty sep t) as Hn.
    destruct (split sep t) as [|w ws]; [easy|].
    rewrite join_push. now rewrite IH.
Qed.

Lemma split_piece (sep : char) (w : string) :
  ~ In sep w -> split sep w = [w].
Proof.
  induction w as [|c w IH]; simpl; intro H; [reflexivity|].
  destruct (N.eqb_spec c sep) as [->|Hne]; [exfalso; auto|].
  rewrite IH by auto. reflexivity.
Qed.

Lemma split_app_sep (sep : char) (w rest : string) :
  ~ In sep w -> split sep (w ++ sep :: rest) = w :: split sep rest.
Proof.
  induction w as [|c w IH]; simpl; intro H.
  - now rewrite N.eqb_refl.
  - destruct (N.eqb_spec c sep) as [->|Hne]; [exfalso; auto|].
    rewrite IH by auto. reflexivity.
Qed.

(** Splitting the join of pieces without separator gives the pieces back. *)
Lemma split_join (sep : char) (a : list string) :
  a <> [] -> Forall (fun w => ~ In sep w) a -> split sep (join sep a) = a.
Proof.
  induction a as [|w ws IH]; intros Hne Hall; [easy|].
  inversion Hall as [|? ? Hw Hws]; subst.
  destruct ws as [|w' ws'].
  - simpl. now apply split_piece.
  - rewrite join_cons by easy. rewrite split_app_sep by assumption.
    now rewrite IH.
Qed.

Lemma join_inj (sep : char) (a b : list string) :
  a <> [] -> b <> [] ->
  Forall (fun w => ~ In sep w) a -> Forall (fun w => ~ In sep w) b ->
  join sep a = join sep b -> a = b.
Proof.
  intros Ha Hb Fa Fb E.
  rewrite <- (@split_join sep a Ha Fa), <- (@split_join sep b Hb Fb).
  now rewrite E.
Qed.

(** [slice] with the negation of a positive count keeps that many
    trailing elements. *)
Lemma slice_neg_trailing (A : Type) (k : nat) (a : list A) :
  1 <= k -> slice (- Z.of_nat k) a = trailing k a.
Proof.
  intro Hk. unfold slice, trailing, length.
  destruct (Z.ltb_spec (- Z.of_nat k) 0) as [_|H]; [|exfalso; lia].
  f_equal. lia.
Qed.

Lemma trailing_nonempty (A : Type) (k : nat) (a : list A) :
  1 <= k -> a <> [] -> trailing k a <> [].
Proof.
  intros Hk Ha E. unfold trailing in E.
  apply (f_equal (@List.length A)) in E. rewrite length_skipn in E.
  assert (1 <= List.length a) by (destruct a; [easy|simpl; lia]).
  simpl in E. lia.
Qed.

Lemma trailing_Forall (A : Type) (P : A -> Prop) (k : nat) (a : list A) :
  Forall P a -> Forall P (trailing k a).
Proof.
  unfold trailing. generalize (List.length a - k). intros n H.
  revert n; induction H as [|x l Hx Hl IH]; intros [|n]; simpl; auto.
Qed.

End JsFacts.

(** ** Facts about the pattern *)

Module FqnPatternFacts.
Import Js FqnPattern.

(** A failed tail match: no quotation mark followed by a full stop can
    be reached from the head of [s] over code units that are not line
    terminators. *)
Lemma match_tail_None (s : string) :
  match_tail s = None ->
  forall mid post,
    s = mid ++ QUOTATION_MARK :: FULL_STOP :: post ->
    Forall notLineTerminator mid -> False.
Proof.
  induction s as [|c t IH]; intros Hm mid post E Hmid.
  - destruct mid; discriminate.
  - simpl in Hm. destruct (isLineTerminator c) eqn:Hc.
    + destruct mid as [|m mid]; simpl in E; inversion E; subst.
      * discriminate.
      * inversion Hmid; subst. unfold notLineTerminator in *. congruence.
    + destruct (match_tail t) eqn:Ht; [discriminate|].
      destruct mid as [|m mid]; simpl in E; inversion E; subst.
      * simpl in Hm. discriminate.
      * inversion Hmid; subst. eapply IH; eauto.
Qed.

(** A successful tail match ends at the last reachable quotation mark
    followed by a full stop. *)
Lemma match_tail_Some (s post : string) :
  match_tail s = Some post ->
  exists mid,
    s = mid ++ QUOTATION_MARK :: FULL_STOP :: post /\
    Forall notLineTerminator mid /\
    forall mid' post',
      s = mid' ++ QUOTATION_MARK :: FULL_STOP :: post' ->
      Forall notLineTerminator mid' ->
      List.length mid' <= List.length mid.
Proof.
  revert post; induction s as [|c t IH]; intros post Hm; [discriminate|].
  simpl in Hm. destruct (isLineTerminator c) eqn:Hc; [discriminate|].
  destruct (match_tail t) as [rest|] eqn:Ht.
  - inversion Hm; subst rest.
    destruct (IH post eq_refl) as (mid & E & Hmid & Hlong).
    exists (c :: mid). split; [simpl; now rewrite E|].
    split; [now constructor|].
    intros [|m mid'] post' E' Hmid'; simpl; [lia|].
    simpl in E'. inversion E'; subst m. inversion Hmid'; subst.
    apply le_n_S. eapply Hlong; eauto.
  - destruct (N.eqb_spec c QUOTATION_MARK) as [->|]; [|discriminate].
    destruct t as [|d rest]; [discriminate|].
    destruct (N.eqb_spec d FULL_STOP) as [->|]; [|discriminate].
    inversion Hm; subst rest.
    exists []. split; [reflexivity|]. split; [constructor|].
    intros [|m mid'] post' E' Hmid'; simpl; [lia|].
    exfalso. simpl in E'. inversion E'; subst m.
    inversion Hmid'; subst.
    eapply (match_tail_None Ht); eauto.
Qed.

Lemma isMatch_nil (pre mid post : string) : ~ isMatch [] pre mid post.
Proof. intros [E _]. destruct pre; discriminate. Qed.

(** A match in [c :: t] starts at [c] or lies in [t]. *)
Lemma isMatch_cons (c : char) (t pre mid post : string) :
  isMatch (c :: t) pre mid post ->
  (pre = [] /\ c = QUOTATION_MARK /\
   t = mid ++ QUOTATION_MARK :: FULL_STOP :: post /\
   Forall notLineTerminator mid) \/
  (exists pre', pre = c :: pre' /\ isMatch t pre' mid post).
Proof.
  intros [E Hmid]. destruct pre as [|p pre]; simpl in E; inversion E; subst.
  - left. auto.
  - right. exists pre. split; [reflexivity|]. split; auto.
Qed.

(** When the name opens with a quoted segment free of line terminators
    and no quotation mark followed by a full stop comes after it, the
    match is that segment with its full stop. *)
Lemma replace_leading_segment (m rest : string) :
  Forall notLineTerminator m ->
  (forall a b, rest <> a ++ QUOTATION_MARK :: FULL_STOP :: b) ->
  replace (QUOTATION_MARK :: m ++ QUOTATION_MARK :: FULL_STOP :: rest) = rest.
Proof.
  intros Hm Hrest. simpl.
  destruct (match_tail (m ++ QUOTATION_MARK :: FULL_STOP :: rest))
    as [post|] eqn:Ht.
  - destruct (match_tail_Some _ Ht) as (mid & E & Hmid & Hlong).
    pose proof (Hlong m rest eq_refl Hm) as Hle.
    clear Ht Hlong Hmid Hm. revert mid E Hle.
    induction m as [|c m IH]; intros mid E Hle.
    + destruct mid as [|x mid]; simpl in E.
      * now inversion E.
      * inversion E as [[Hx E']]. destruct mid as [|y mid]; simpl in E'.
        -- discriminate.
        -- inversion E' as [[Hy E'']]. exfalso. eapply Hrest; eauto.
    + destruct mid as [|x mid]; simpl in Hle; [lia|].
      simpl in E. inversion E. eapply IH; eauto. lia.
  - exfalso. eapply (match_tail_None Ht); eauto.
Qed.

Lemma replace_without_quote (s : string) :
  ~ In QUOTATION_MARK s -> replace s = s.
Proof.
  induction s as [|c t IH]; intro H; [reflexivity|]. simpl.
  destruct (N.eqb_spec c QUOTATION_MARK) as [->|_]; [exfalso; simpl in H; auto|].
  rewrite IH; [reflexivity|]. intro; apply H; now right.
Qed.

(** The specification's stripping on the same names. *)
Lemma strip_leading_segment (m rest : string) :
  ~ In QUOTATION_MARK m ->
  LeadingSegment.strip (QUOTATION_MARK :: m ++ QUOTATION_MARK :: FULL_STOP :: rest)
  = rest.
Proof.
  intro Hm. simpl.
  assert (E : LeadingSegment.afterClosingQuote
                (m ++ QUOTATION_MARK :: FULL_STOP :: rest) = Some rest).
  { induction m as [|c m IH]; simpl.
    - reflexivity.
    - destruct (N.eqb_spec c QUOTATION_MARK) as [->|_]; [exfalso; simpl in Hm; auto|].
      apply IH. intro; apply Hm; now right. }
  now rewrite E.
Qed.

End FqnPatternFacts.

(** ** Facts about the comparison of the two sequences *)

Section Comparison.
Import Js JsFacts.

(** On sequences that come from a split, the comparison of the joined
    trailing parts is the comparison of the trailing segments. *)
Lemma namesDiffer_trailing (symbolName nodeName : list string) :
  symbolName <> [] -> nodeName <> [] ->
  dotFree symbolName -> dotFree nodeName ->
  let k := Nat.min (List.length symbolName) (List.length nodeName) in
  namesDiffer symbolName nodeName = true <->
  trailing k symbolName <> trailing k nodeName.
Proof.
  intros Hs Hn Fs Fn k.
  assert (Hk : 1 <= k).
  { unfold k. destruct symbolName, nodeName; simpl; try easy; lia. }
  unfold namesDiffer, length.
  destruct (Z.eqb_spec (Z.of_nat (List.length symbolName)) 0) as [E|_].
  { destruct symbolName; [easy|discriminate]. }
  destruct (Z.eqb_spec (Z.of_nat (List.length nodeName)) 0) as [E|_].
  { destruct nodeName; [easy|discriminate]. }
  cbv zeta. rewrite <- Nat2Z.inj_min. fold k.
  rewrite !slice_neg_trailing by exact Hk.
  rewrite negb_true_iff, string_eqb_neq.
  split; intros H E; apply H.
  - now rewrite E.
  - symmetry. apply (@join_inj FULL_STOP); auto using trailing_nonempty.
    + now apply trailing_Forall.
    + now apply trailing_Forall.
Qed.

End Comparison.

(** ** Properties of the converter *)

Section Properties.

Variables Symbol Identifier TypeNode TsType ModelType Context : Type.
Variable W : Collaborators Symbol Identifier TypeNode TsType ModelType Context.

Local Abbreviation Node := (TypeReferenceNode Identifier TypeNode).

(** [supportsNode] on a use site with a name and a symbol: it reads the
    fully-qualified name and compares. *)
Lemma supportsNode_compares (c : Context) (node : Node) (type : TsType)
    (tn : EntityName Identifier) (sym : Symbol) :
  typeName node = Some tn -> symbol W type = Some sym ->
  supportsNode W (Some node) (Some type) c
  = Normal (namesDiffer (symbolNameOf (getFullyQualifiedName W c sym))
                        (nodeNameOf (getText W tn)), c).
Proof. intros Hn Hs. unfold supportsNode. now rewrite Hn, Hs. Qed.

(** [convertNode] on a node with a name, step by step. *)
Lemma convertNode_named (c : Context) (node : Node) (tn : EntityName Identifier) :
  typeName node = Some tn ->
  convertNode W node c =
  Normal
    (match resolvedTarget W c (identifierOf tn) with
     | Some s =>
         let fqn := getFullyQualifiedName W c s in
         let c1 := saveRemainingSymbolReflection W fqn s c in
         ({| ref_name := getText W tn;
             ref_resolutionTarget := fqn;
             ref_typeArguments := convertedTypeArguments W node c1 |},
          afterTypeArguments W node c1)
     | None =>
         ({| ref_name := getText W tn;
             ref_resolutionTarget := SYMBOL_FQN_RESOLVE_BY_NAME W;
             ref_typeArguments := convertedTypeArguments W node c |},
          afterTypeArguments W node c)
     end).
Proof.
  intro Hn. unfold convertNode, resolvedTarget, convertedTypeArguments,
    afterTypeArguments. rewrite Hn.
  unfold bind, ctx_getSymbolAtLocation, ctx_resolveAliasedSymbol. cbn beta iota.
  destruct (resolveAliasedSymbol W c
              (getSymbolAtLocation W c (identifierOf tn))) as [s|];
    unfold ctx_getFullyQualifiedName, ctx_saveRemainingSymbolReflection, ret,
      owner_convertTypes; cbn beta iota zeta;
    destruct (typeArguments node) as [args|]; cbn beta iota zeta;
    try reflexivity.
  - destruct (convertTypes W args _); reflexivity.
  - destruct (convertTypes W args c); reflexivity.
Qed.

(** C1.  On a use site whose node has a name and whose type has a
    symbol, [supportsNode] returns true exactly when the trailing
    [k = min (len symbolName) (len nodeName)] segments of the symbol's
    qualified name and of the surface name differ, and false exactly
    when they are equal; the context is returned as it was. *)
Theorem supportsNode_iff_trailing_segments_differ
    (c : Context) (node : Node) (type : TsType)
    (tn : EntityName Identifier) (sym : Symbol) :
  typeName node = Some tn -> symbol W type = Some sym ->
  let symbolName := symbolNameOf (getFullyQualifiedName W c sym) in
  let nodeName := nodeNameOf (getText W tn) in
  let k := Nat.min (List.length symbolName) (List.length nodeName) in
  exists b : bool,
    supportsNode W (Some node) (Some type) c = Normal (b, c) /\
    (b = true <-> trailing k symbolName <> trailing k nodeName) /\
    (b = false <-> trailing k symbolName = trailing k nodeName).
Proof.
  intros Hn Hs symbolName nodeName k.
  exists (namesDiffer symbolName nodeName).
  split; [now apply supportsNode_compares|].
  assert (H : namesDiffer symbolName nodeName = true <->
              trailing k symbolName <> trailing k nodeName).
  { apply namesDiffer_trailing;
      try apply JsFacts.split_nonempty; apply JsFacts.split_no_sep. }
  split; [exact H|].
  destruct (list_eq_dec (list_eq_dec N.eq_dec)
              (trailing k symbolName) (trailing k nodeName)) as [E|E].
  - split; [auto|]. intros _.
    destruct (namesDiffer symbolName nodeName); [|reflexivity].
    exfalso. now apply (proj1 H).
  - split; [|contradiction]. intro Hb.
    apply (proj2 H) in E. congruence.
Qed.

(** C2.  A conversion of a node with a name returns normally.  When the
    symbol at the lookup identifier resolves to a target symbol, the
    resolution target of the result is the fully-qualified name of that
    symbol, and the pair of this name and the symbol is registered with
    the context, once, before the owner converts the type arguments.
    When there is no target symbol, the resolution target is the
    sentinel and the converter registers nothing: the context goes
    unchanged to the owner's conversion of the type arguments, and is
    returned unchanged when the node has none. *)
Theorem convertNode_target_and_registration
    (c : Context) (node : Node) (tn : EntityName Identifier) :
  typeName node = Some tn ->
  exists (r : ReferenceType ModelType) (c' : Context),
    convertNode W node c = Normal (r, c') /\
    match resolveAliasedSymbol W c (getSymbolAtLocation W c (identifierOf tn)) with
    | Some target =>
        let fqn := getFullyQualifiedName W c target in
        ref_resolutionTarget r = fqn /\
        c' = afterTypeArguments W node
               (saveRemainingSymbolReflection W fqn target c) /\
        (typeArguments node = None ->
         c' = saveRemainingSymbolReflection W fqn target c)
    | None =>
        ref_resolutionTarget r = SYMBOL_FQN_RESOLVE_BY_NAME W /\
        c' = afterTypeArguments W node c /\
        (typeArguments node = None -> c' = c)
    end.
Proof.
  intro Hn. rewrite (convertNode_named c node Hn). unfold resolvedTarget.
  destruct (resolveAliasedSymbol W c (getSymbolAtLocation W c (identifierOf tn)));
    eexists; eexists; (split; [reflexivity|]); cbv zeta;
    (split; [reflexivity|]); (split; [reflexivity|]);
    intro Hargs; unfold afterTypeArguments; now rewrite Hargs.
Qed.

(** C3.  On a use site whose node has a name and whose type is present
    and has no symbol, [supportsNode] returns true, whatever the surface
    name is. *)
Theorem supportsNode_type_without_symbol
    (c : Context) (node : Node) (type : TsType) (tn : EntityName Identifier) :
  typeName node = Some tn -> symbol W type = None ->
  supportsNode W (Some node) (Some type) c = Normal (true, c).
Proof. intros Hn Hs. unfold supportsNode. now rewrite Hn, Hs. Qed.

(** C4.  A conversion of a node with a name returns a reference whose
    name is the text of the type name as written; the symbol is looked
    up at the right identifier of a qualified name and at the name
    itself otherwise; and the type arguments of the result are what the
    owner's [convertTypes] returns for the type arguments of the node,
    in the context after the registration, and are unset when the node
    has none. *)
Theorem convertNode_name_identifier_typeArguments
    (c : Context) (node : Node) (tn : EntityName Identifier) :
  typeName node = Some tn ->
  exists (r : ReferenceType ModelType) (c' : Context),
    convertNode W node c = Normal (r, c') /\
    ref_name r = getText W tn /\
    match tn with
    | QualifiedName _ rightName =>
        ref_resolutionTarget r = targetName W c (resolvedTarget W c rightName)
    | IdentifierName i =>
        ref_resolutionTarget r = targetName W c (resolvedTarget W c i)
    end /\
    ref_typeArguments r =
      match typeArguments node with
      | Some args =>
          Some (fst (convertTypes W args
                       (afterRegistration W c (identifierOf tn))))
      | None => None
      end.
Proof.
  intro Hn. rewrite (convertNode_named c node Hn).
  unfold convertedTypeArguments, afterRegistration, targetName.
  assert (Hid : match tn with
                | QualifiedName _ rightName => identifierOf tn = rightName
                | IdentifierName i => identifierOf tn = i
                end) by (destruct tn; reflexivity).
  destruct (resolvedTarget W c (identifierOf tn)) as [s|] eqn:Ht;
    eexists; eexists; (split; [reflexivity|]);
    cbn [ref_name ref_resolutionTarget ref_typeArguments];
    (split; [reflexivity|]);
    (split; [destruct tn; rewrite <- Hid, Ht; reflexivity|]);
    destruct (typeArguments node); reflexivity.
Qed.

(** C5.  When the type is absent, the node is absent or the node has no
    name, [supportsNode] returns false, normally and without a change of
    the context. *)
Theorem supportsNode_malformed_use_site
    (c : Context) (node : option Node) (type : option TsType) :
  type = None \/ node = None \/ (exists n, node = Some n /\ typeName n = None) ->
  supportsNode W node type c = Normal (false, c).
Proof.
  intros [->|[->|(n & -> & Hn)]]; unfold supportsNode.
  - reflexivity.
  - destruct type; reflexivity.
  - destruct type; [|reflexivity]. now rewrite Hn.
Qed.

(** C8.  A conversion of a node with a name returns a reference, and a
    second conversion of the same node, from any state of the context in
    which the lookups answer as they did for the first (the same state,
    or the state the first conversion left), returns a reference with
    the same name and the same resolution target. *)
Theorem convertNode_twice_same_name_and_target
    (node : Node) (tn : EntityName Identifier) (c : Context) :
  typeName node = Some tn ->
  exists (r1 : ReferenceType ModelType) (c1 : Context),
    convertNode W node c = Normal (r1, c1) /\
    forall c' : Context,
      sameAnswers W c c' ->
      exists (r2 : ReferenceType ModelType) (c2 : Context),
        convertNode W node c' = Normal (r2, c2) /\
        ref_name r2 = ref_name r1 /\
        ref_resolutionTarget r2 = ref_resolutionTarget r1.
Proof.
  intro Hn. rewrite (convertNode_named c node Hn).
  eexists; eexists; split; [apply f_equal; apply surjective_pairing|].
  intros c' (Hsym & Hres & Hfqn). rewrite (convertNode_named c' node Hn).
  eexists; eexists; split; [apply f_equal; apply surjective_pairing|].
  unfold resolvedTarget. rewrite <- Hsym, <- Hres.
  destruct (resolveAliasedSymbol W c (getSymbolAtLocation W c (identifierOf tn)));
    cbn; auto.
Qed.

(** C9.  Called through the converter interface, the conversion returns
    the same completion (the same reference and the same context) for
    any two resolved types handed over with a node and a context. *)
Theorem convertNode_independent_of_resolved_type
    (node : Node) (type1 type2 : option TsType) (c : Context) :
  tnc_convertNode (AliasConverter W) node type1 c
  = tnc_convertNode (AliasConverter W) node type2 c.
Proof. unfold AliasConverter, tnc_convertNode. reflexivity. Qed.

(** C10.  [supportsNode] returns normally with the context it was given,
    on every node and type.  A conversion that finds no target symbol
    registers nothing: the context it returns is the one the owner's
    conversion of the type arguments leaves from the unchanged context,
    and the unchanged context when the node has no type arguments.  A
    conversion that finds a target symbol registers it first. *)
Theorem supportsNode_preserves_context (c : Context) :
  (forall (node : option Node) (type : option TsType),
      exists b : bool, supportsNode W node type c = Normal (b, c)) /\
  (forall node : Node,
      match typeName node with
      | None => convertNode W node c = Throw TypeError
      | Some tn =>
          match resolvedTarget W c (identifierOf tn) with
          | None =>
              exists r, convertNode W node c
                        = Normal (r, afterTypeArguments W node c) /\
                        (typeArguments node = None ->
                         convertNode W node c = Normal (r, c))
          | Some s =>
              exists r, convertNode W node c
                        = Normal (r, afterTypeArguments W node
                                       (saveRemainingSymbolReflection W
                                          (getFullyQualifiedName W c s) s c))
          end
      end).
Proof.
  split.
  - intros [node|] [type|]; unfold supportsNode; try (eexists; reflexivity).
    destruct (typeName node); [|eexists; reflexivity].
    destruct (symbol W type); eexists; reflexivity.
  - intro node. destruct (typeName node) as [tn|] eqn:Hn.
    + rewrite (convertNode_named c node Hn).
      destruct (resolvedTarget W c (identifierOf tn)); eexists;
        [reflexivity|split; [reflexivity|]].
      intro Hargs. unfold afterTypeArguments. now rewrite Hargs.
    + unfold convertNode. now rewrite Hn.
Qed.

End Properties.

Section Stripping.
Import Js FqnPattern FqnPatternFacts.

(** C6, as the code has it.  [replace] cuts one match out of the
  fully-qualified name and keeps the rest: the match that starts at the
  leftmost quotation mark from which a quotation mark followed by a full
  stop can be reached without a line terminator, and that ends at the
  last such full stop.  A name without a match is left as it is. *)
Theorem replace_leftmost_longest (s : Js.string) :
(FqnPattern.replace s = s /\ forall pre mid post, ~ isMatch s pre mid post) \/
(exists pre mid post,
    isMatch s pre mid post /\
    FqnPattern.replace s = pre ++ post /\
    forall pre' mid' post',
      isMatch s pre' mid' post' ->
      List.length pre <= List.length pre' /\
      (List.length pre' = List.length pre ->
       List.length mid' <= List.length mid)).
Proof.
induction s as [|c t IH].
- left. split; [reflexivity|]. intros; apply isMatch_nil.
- assert (Hhere :
    (exists rest, c = QUOTATION_MARK /\ match_tail t = Some rest) \/
    (replace (c :: t) = c :: replace t /\
     forall mid post,
       c = QUOTATION_MARK ->
       t = mid ++ QUOTATION_MARK :: FULL_STOP :: post ->
       Forall notLineTerminator mid -> False)).
  { simpl. destruct (N.eqb_spec c QUOTATION_MARK) as [->|Hc].
    - destruct (match_tail t) as [rest|] eqn:Ht.
      + left. eauto.
      + right. split; [reflexivity|]. intros mid post _ E Hmid.
        eapply (match_tail_None Ht); eauto.
    - right. split; [reflexivity|]. intros; contradiction. }
  destruct Hhere as [(rest & -> & Ht)|[Hrep Hnone]].
  + right. destruct (match_tail_Some _ Ht) as (mid & E & Hmid & Hlong).
    exists [], mid, rest. split; [split; [simpl; now rewrite E|exact Hmid]|].
    split; [simpl; now rewrite Ht|].
    intros pre' mid' post' Hm'. split; [simpl; lia|].
    intro Hlen. destruct (isMatch_cons Hm') as [(_ & _ & E' & Hmid')|(p & -> & _)].
    * eapply Hlong; eauto.
    * discriminate.
  + destruct IH as [[Hid Hno]|(pre & mid & post & Hm & Hrepl & Hmin)].
    * left. split; [rewrite Hrep; now rewrite Hid|].
      intros pre' mid' post' Hm'.
      destruct (isMatch_cons Hm') as [(_ & Hc & E' & Hmid')|(p & -> & Hm'')].
      -- eapply Hnone; eauto.
      -- eapply Hno; eauto.
    * right. exists (c :: pre), mid, post.
      split; [destruct Hm as [E Hmid]; split; [simpl; now rewrite E|exact Hmid]|].
      split; [rewrite Hrep; simpl; now rewrite Hrepl|].
      intros pre' mid' post' Hm'.
      destruct (isMatch_cons Hm') as [(_ & Hc & E' & Hmid')|(p & -> & Hm'')].
      -- exfalso. eapply Hnone; eauto.
      -- destruct (Hmin _ _ _ Hm'') as [Hle Hlong]. simpl. split; [lia|].
         intro Hlen. apply Hlong. lia.
Qed.

End Stripping.

Section Guards.
Import Js JsFacts.

(** The two sequences of [supportsNode] are never empty, so its two
    length guards never fire: an empty name is the sequence of one empty
    segment, and is compared like any other. *)
Lemma sequences_never_empty (fqn text : string) :
  symbolNameOf fqn <> [] /\ nodeNameOf text <> [].
Proof. split; apply split_nonempty. Qed.

End Guards.

Section GuardsOnUseSites.

Variables Symbol Identifier TypeNode TsType ModelType Context : Type.
Variable W : Collaborators Symbol Identifier TypeNode TsType ModelType Context.


End GuardsOnUseSites.

(** ** The properties at the small program *)

Lemma supportsNode_iff_trailing_segments_differ_witness :
  let c : Demo.Context := [] in
  let symbolName := symbolNameOf (Demo.getFullyQualifiedName c Demo.realClass) in
  let nodeName := nodeNameOf (Demo.getText (IdentifierName "Alias"%string)) in
  let k := Nat.min (List.length symbolName) (List.length nodeName) in
  exists b : bool,
    supportsNode Demo.world (Some Demo.aliasUse) (Some (Some Demo.realClass)) c
    = Normal (b, c) /\
    (b = true <-> trailing k symbolName <> trailing k nodeName) /\
    (b = false <-> trailing k symbolName = trailing k nodeName).
Proof.
  apply (@supportsNode_iff_trailing_segments_differ _ _ _ _ _ _ Demo.world []
           Demo.aliasUse (Some Demo.realClass)
           (IdentifierName "Alias"%string) Demo.realClass);
    reflexivity.
Defined.

Lemma convertNode_target_and_registration_witness :
  exists (r : ReferenceType Demo.ModelType) (c' : Demo.Context),
    convertNode Demo.world Demo.aliasUse [] = Normal (r, c') /\
    ref_resolutionTarget r = Demo.getFullyQualifiedName [] Demo.realClass /\
    c' = [(Demo.getFullyQualifiedName [] Demo.realClass, Demo.realClass)] /\
    (typeArguments Demo.aliasUse = None ->
     c' = [(Demo.getFullyQualifiedName [] Demo.realClass, Demo.realClass)]).
Proof.
  apply (@convertNode_target_and_registration _ _ _ _ _ _ Demo.world []
           Demo.aliasUse (IdentifierName "Alias"%string)).
  reflexivity.
Defined.

Lemma supportsNode_type_without_symbol_witness :
  supportsNode Demo.world (Some Demo.numberUse) (Some None) [] = Normal (true, []).
Proof.
  apply (@supportsNode_type_without_symbol _ _ _ _ _ _ Demo.world []
           Demo.numberUse None (IdentifierName "MyNumber"%string));
    reflexivity.
Defined.

Lemma convertNode_name_identifier_typeArguments_witness :
  exists (r : ReferenceType Demo.ModelType) (c' : Demo.Context),
    convertNode Demo.world Demo.qualifiedUse [] = Normal (r, c') /\
    ref_name r = Js.of_string "NS.RealClass" /\
    ref_resolutionTarget r
    = targetName Demo.world []
        (resolvedTarget Demo.world [] "RealClass"%string) /\
    ref_typeArguments r = Some [Js.of_string "T"].
Proof.
  apply (@convertNode_name_identifier_typeArguments _ _ _ _ _ _ Demo.world []
           Demo.qualifiedUse
           (QualifiedName (IdentifierName "NS"%string) "RealClass"%string)).
  reflexivity.
Defined.

Lemma supportsNode_malformed_use_site_witness :
  supportsNode Demo.world (Some Demo.nameless) (Some (Some Demo.realClass)) []
  = Normal (false, []).
Proof.
  apply (@supportsNode_malformed_use_site _ _ _ _ _ _ Demo.world []
           (Some Demo.nameless) (Some (Some Demo.realClass))).
  right; right. exists Demo.nameless. split; reflexivity.
Defined.



Lemma convertNode_twice_same_name_and_target_witness :
  exists (r1 : ReferenceType Demo.ModelType) (c1 : Demo.Context),
    convertNode Demo.world Demo.aliasUse [] = Normal (r1, c1) /\
    forall c' : Demo.Context,
      sameAnswers Demo.world [] c' ->
      exists (r2 : ReferenceType Demo.ModelType) (c2 : Demo.Context),
        convertNode Demo.world Demo.aliasUse c' = Normal (r2, c2) /\
        ref_name r2 = ref_name r1 /\
        ref_resolutionTarget r2 = ref_resolutionTarget r1.
Proof.
  apply (@convertNode_twice_same_name_and_target _ _ _ _ _ _ Demo.world
           Demo.aliasUse (IdentifierName "Alias"%string) []).
  reflexivity.
Defined.

(** The second conversion of [let x: Alias] in the context the first one
    left: the same name and target, and the queue as it was. *)
Example scenario_alias_twice :
  sameAnswers Demo.world [] [(Demo.getFullyQualifiedName [] Demo.realClass, Demo.realClass)] /\
  convertNode Demo.world Demo.aliasUse
    [(Demo.getFullyQualifiedName [] Demo.realClass, Demo.realClass)]
  = Normal (Build_ReferenceType (Js.of_string "Alias")
              (Demo.getFullyQualifiedName [] Demo.realClass) None,
            [(Demo.getFullyQualifiedName [] Demo.realClass, Demo.realClass)]).
Proof. split; [repeat split|reflexivity]. Qed.

(** C6 as stated fails on two names.  In ["a".B."c".D] the code strips
    everything up to the last quoted segment, with the plain segment [B]
    between the two, where the leading segment alone would leave
    [B."c".D]; in [A."b".C] it strips the quoted segment in the middle,
    which is not leading. *)
Lemma replace_strips_more_than_leading_segment :
  FqnPattern.replace Demo.twoQuoted = Js.of_string "D" /\
  LeadingSegment.strip Demo.twoQuoted
  = Js.of_string "B." ++ Demo.quoted "c" ++ Js.of_string ".D" /\
  FqnPattern.replace Demo.twoQuoted <> LeadingSegment.strip Demo.twoQuoted /\
  symbolNameOf Demo.innerQuoted = [Js.of_string "A"; Js.of_string "C"] /\
  LeadingSegment.strip Demo.innerQuoted = Demo.innerQuoted /\
  FqnPattern.replace Demo.innerQuoted <> LeadingSegment.strip Demo.innerQuoted.
Proof.
  repeat split; try reflexivity; intro H; vm_compute in H; discriminate.
Qed.

(** ** The scenarios of the specification, run *)

(** [let x: Alias] where the type carries the symbol of [RealClass]: the
    converter applies, and the conversion refers to [RealClass] and
    queues it. *)
Example scenario_alias :
  supportsNode Demo.world (Some Demo.aliasUse) (Some (Some Demo.realClass)) []
  = Normal (true, []) /\
  convertNode Demo.world Demo.aliasUse []
  = Normal (Build_ReferenceType (Js.of_string "Alias")
              (Demo.quoted "mod" ++ Js.of_string ".NS.RealClass") None,
            [(Demo.quoted "mod" ++ Js.of_string ".NS.RealClass", Demo.realClass)]).
Proof. split; reflexivity. Qed.

(** [let x: RealClass] and [let x: NS.RealClass]: the names match, the
    converter does not apply. *)
Example scenario_direct :
  supportsNode Demo.world (Some Demo.directUse) (Some (Some Demo.realClass)) []
  = Normal (false, []) /\
  supportsNode Demo.world (Some Demo.qualifiedUse) (Some (Some Demo.realClass)) []
  = Normal (false, []).
Proof. split; reflexivity. Qed.

(** [let x: MyNumber], an alias of a primitive type: no symbol on the
    type, no target symbol, the sentinel. *)
Example scenario_primitive_alias :
  supportsNode Demo.world (Some Demo.numberUse) (Some None) [] = Normal (true, []) /\
  convertNode Demo.world Demo.numberUse []
  = Normal (Build_ReferenceType (Js.of_string "MyNumber") (Js.of_string "-2") None, []).
Proof. split; reflexivity. Qed.

(** Right alignment: against [X.Y.Z], the surface name [Y.Z] matches and
    [Y.W] does not. *)
Example right_alignment :
  namesDiffer (symbolNameOf (Js.of_string "X.Y.Z")) (nodeNameOf (Js.of_string "Y.Z"))
  = false /\
  namesDiffer (symbolNameOf (Js.of_string "X.Y.Z")) (nodeNameOf (Js.of_string "Y.W"))
  = true.
Proof. split; reflexivity. Qed.

(** An empty fully-qualified name is one empty segment: it passes the
    guards and differs from the surface name. *)
Example empty_name_is_compared :
  symbolNameOf [] = [[]] /\
  namesDiffer (symbolNameOf []) (nodeNameOf (Js.of_string "Alias")) = true.
Proof. split; reflexivity. Qed.

(** The support predicate does read the type: the same node with a type
    without symbol and with the symbol of the alias itself. *)
Example supportsNode_reads_the_type :
  supportsNode Demo.world (Some Demo.aliasUse) (Some None) [] = Normal (true, []) /\
  supportsNode Demo.world (Some Demo.aliasUse) (Some (Some Demo.aliasSymbol)) []
  = Normal (false, []).
Proof. split; reflexivity. Qed.

(** ** More facts about the primitives *)

Module SequenceFacts.
Import Js JsFacts.

Lemma string_eqb_sym (s t : string) : string_eqb s t = string_eqb t s.
Proof.
  destruct (string_eqb t s) eqn:E.
  - apply string_eqb_eq in E. subst. now apply string_eqb_eq.
  - apply string_eqb_neq in E. apply string_eqb_neq. congruence.
Qed.

(** A split at a separator is the two splits one after the other. *)
Lemma split_app (sep : char) (p b : string) :
  split sep (p ++ sep :: b) = split sep p ++ split sep b.
Proof.
  induction p as [|c p IH]; simpl.
  - now rewrite N.eqb_refl.
  - destruct (N.eqb_spec c sep) as [->|Hne].
    + now rewrite IH.
    + rewrite IH. pose proof (split_nonempty sep p) as Hp.
      destruct (split sep p) as [|w ws]; [easy|reflexivity].
Qed.

Lemma join_app (sep : char) (a b : list string) :
  a <> [] -> b <> [] -> join sep (a ++ b) = join sep a ++ sep :: join sep b.
Proof.
  induction a as [|w ws IH]; intros Ha Hb; [easy|].
  destruct ws as [|w' ws'].
  - simpl app. now rewrite join_cons.
  - change ((w :: w' :: ws') ++ b) with (w :: (w' :: ws') ++ b).
    rewrite join_cons by (simpl; discriminate).
    rewrite IH by easy. rewrite (@join_cons sep w (w' :: ws')) by easy.
    now rewrite <- app_assoc.
Qed.

Lemma split_inj (sep : char) (a b : string) : split sep a = split sep b -> a = b.
Proof.
  intro E. rewrite <- (join_split sep a), <- (join_split sep b). now rewrite E.
Qed.

(** One split continues another exactly when one string continues the
    other after a separator. *)
Lemma split_suffix (sep : char) (a b : string) :
  (exists pre, split sep a = pre ++ split sep b) <->
  a = b \/ exists p, a = p ++ sep :: b.
Proof.
  split.
  - intros [[|x xs] E].
    + left. now apply (@split_inj sep).
    + right. exists (join sep (x :: xs)).
      rewrite <- (join_split sep a), E.
      rewrite join_app by (try apply split_nonempty; discriminate).
      now rewrite join_split.
  - intros [->|[p ->]].
    + now exists [].
    + exists (split sep p). apply split_app.
Qed.

Lemma trailing_app (A : Type) (k : nat) (pre l : list A) :
  k <= List.length l -> trailing k (pre ++ l) = trailing k l.
Proof.
  intro Hk. unfold trailing. rewrite skipn_app, length_app.
  rewrite skipn_all2 by lia. simpl. f_equal. lia.
Qed.

Lemma trailing_whole (A : Type) (l : list A) : trailing (List.length l) l = l.
Proof. unfold trailing. now rewrite Nat.sub_diag. Qed.

Lemma trailing_suffix (A : Type) (s n : list A) :
  List.length n <= List.length s ->
  let k := Nat.min (List.length s) (List.length n) in
  trailing k s = trailing k n <-> exists pre, s = pre ++ n.
Proof.
  intros Hle k. unfold k. rewrite Nat.min_r by exact Hle.
  rewrite trailing_whole. split.
  - intro E. exists (firstn (List.length s - List.length n) s).
    rewrite <- E at 2. unfold trailing. now rewrite firstn_skipn.
  - intros [pre ->]. rewrite trailing_app by lia. apply trailing_whole.
Qed.

Lemma trailing_one (A : Type) (d : A) (l : list A) :
  l <> [] -> trailing 1 l = [last l d].
Proof.
  induction l as [|x l IH]; intro H; [easy|].
  destruct l as [|y l']; [reflexivity|].
  change (x :: y :: l') with ([x] ++ y :: l').
  rewrite trailing_app by (simpl; lia). rewrite IH by discriminate.
  reflexivity.
Qed.

End SequenceFacts.

(** ** More about the comparison *)

Section ComparisonMore.
Import Js JsFacts SequenceFacts.

Lemma namesDiffer_false_trailing (symbolName nodeName : list string) :
  symbolName <> [] -> nodeName <> [] ->
  dotFree symbolName -> dotFree nodeName ->
  let k := Nat.min (List.length symbolName) (List.length nodeName) in
  namesDiffer symbolName nodeName = false <->
  trailing k symbolName = trailing k nodeName.
Proof.
  intros Hs Hn Fs Fn k.
  pose proof (namesDiffer_trailing Hs Hn Fs Fn) as H. cbv zeta in H. fold k in H.
  destruct (list_eq_dec (list_eq_dec N.eq_dec)
              (trailing k symbolName) (trailing k nodeName)) as [E|E].
  - split; [auto|]. intros _.
    destruct (namesDiffer symbolName nodeName); [|reflexivity].
    exfalso. now apply (proj1 H).
  - split; [|contradiction]. intro Hb. apply (proj2 H) in E. congruence.
Qed.

(** The comparison of the names of two strings: they do not differ
    exactly when one of the strings is the other, or ends with a full
    stop and the other. *)
Lemma namesDiffer_split (a b : string) :
  namesDiffer (split FULL_STOP a) (split FULL_STOP b) = false <->
  dotSuffix a b \/ dotSuffix b a.
Proof.
  rewrite namesDiffer_false_trailing
    by (try apply split_nonempty; apply split_no_sep).
  unfold dotSuffix. rewrite <- !split_suffix.
  set (sa := split FULL_STOP a). set (sb := split FULL_STOP b).
  destruct (Nat.le_ge_cases (List.length sb) (List.length sa)) as [Hle|Hle].
  - rewrite (trailing_suffix sa sb Hle). split; [auto|].
    intros [H|[pre E]]; [exact H|].
    exists []. simpl. assert (Hp : pre = []).
    { apply (f_equal (@List.length _)) in E. rewrite length_app in E.
      destruct pre; [reflexivity|simpl in E; lia]. }
    subst pre. now rewrite E.
  - rewrite Nat.min_comm. split.
    + intro E. right. now apply (proj1 (trailing_suffix sb sa Hle)).
    + intros [[pre E]|H]; symmetry.
      * assert (Hp : pre = []).
        { apply (f_equal (@List.length _)) in E. rewrite length_app in E.
          destruct pre; [reflexivity|simpl in E; lia]. }
        subst pre. simpl in E. apply (proj2 (trailing_suffix sb sa Hle)).
        exists []. now rewrite E.
      * now apply (proj2 (trailing_suffix sb sa Hle)).
Qed.

(** X2.  The comparison of lines 38 to 51 does not tell the two sides
    apart: with the symbol-side and the surface-side sequences swapped it
    gives the same verdict. *)
Theorem namesDiffer_sym (symbolName nodeName : list string) :
  namesDiffer symbolName nodeName = namesDiffer nodeName symbolName.
Proof.
  unfold namesDiffer.
  destruct (Js.length symbolName =? 0)%Z, (Js.length nodeName =? 0)%Z;
    try reflexivity.
  cbv zeta. rewrite Z.min_comm. f_equal. apply string_eqb_sym.
Qed.

(** X3.  Segments of the longer sequence that lie before its trailing
    part are never looked at: in front of a symbol-side sequence that is
    at least as long as the surface-side one, any further segments leave
    the verdict as it is. *)
Theorem namesDiffer_ignores_outer_segments
    (outer symbolName nodeName : list string) :
  1 <= List.length nodeName ->
  List.length nodeName <= List.length symbolName ->
  namesDiffer (outer ++ symbolName) nodeName = namesDiffer symbolName nodeName.
Proof.
  intros H1 Hle. unfold namesDiffer, Js.length. rewrite length_app.
  destruct (Z.eqb_spec (Z.of_nat (List.length outer + List.length symbolName)) 0);
    [lia|].
  destruct (Z.eqb_spec (Z.of_nat (List.length symbolName)) 0); [lia|].
  destruct (Z.eqb_spec (Z.of_nat (List.length nodeName)) 0); [lia|].
  cbv zeta. rewrite !Z.min_r by lia.
  rewrite !slice_neg_trailing by exact H1.
  now rewrite trailing_app by exact Hle.
Qed.

End ComparisonMore.

(** ** More about the pattern *)

Section PatternMore.
Import Js FqnPattern FqnPatternFacts.

Lemma no_match_from_tail (s : string) :
  Forall notLineTerminator s -> match_tail s = None ->
  forall a b, s <> a ++ QUOTATION_MARK :: FULL_STOP :: b.
Proof.
  intros Hs Hm a b E. apply (@match_tail_None s Hm a b E).
  rewrite E in Hs. now apply Forall_app in Hs.
Qed.

Lemma replace_no_quote_dot (s : string) :
  (forall a b, s <> a ++ QUOTATION_MARK :: FULL_STOP :: b) -> replace s = s.
Proof.
  induction s as [|c t IH]; intro H; [reflexivity|]. simpl.
  assert (Ht : replace t = t).
  { apply IH. intros a b E. apply (H (c :: a) b). simpl. now rewrite E. }
  destruct (N.eqb_spec c QUOTATION_MARK) as [->|_]; [|now rewrite Ht].
  destruct (match_tail t) as [rest|] eqn:Hm; [|now rewrite Ht].
  exfalso. destruct (match_tail_Some _ Hm) as (mid & E & _).
  apply (H (QUOTATION_MARK :: mid) rest). simpl. now rewrite E.
Qed.

(** X4.  What stands before the first quotation mark of the name is
    kept: stripping a name that starts with code units other than the
    quotation mark strips the rest of the name and leaves that start in
    place.  A name without any quotation mark is left as it is. *)
Theorem replace_keeps_unquoted_start (start s : string) :
  ~ In QUOTATION_MARK start ->
  replace (start ++ s) = start ++ replace s /\ replace start = start.
Proof.
  intro H. split.
  - induction start as [|c t IH]; [reflexivity|]. simpl.
    destruct (N.eqb_spec c QUOTATION_MARK) as [->|_]; [exfalso; simpl in H; auto|].
    rewrite IH; [reflexivity|]. intro; apply H; now right.
  - now apply replace_without_quote.
Qed.

(** X5.  On a name without line terminator the stripping is done after
    one pass: stripping the stripped name changes nothing. *)
Theorem replace_idempotent (s : string) :
  Forall notLineTerminator s -> replace (replace s) = replace s.
Proof.
  induction s as [|c t IH]; intro Hs; [reflexivity|].
  inversion Hs as [|? ? Hc Ht]; subst. simpl.
  destruct (N.eqb_spec c QUOTATION_MARK) as [->|Hq].
  - destruct (match_tail t) as [rest|] eqn:Hm.
    + apply replace_no_quote_dot. intros a b E.
      destruct (match_tail_Some _ Hm) as (mid & Et & _ & Hlong).
      assert (Hlen : List.length (mid ++ QUOTATION_MARK :: FULL_STOP :: a)
                     <= List.length mid).
      { apply (Hlong _ b).
        - rewrite Et, E, <- app_assoc. reflexivity.
        - rewrite Et, E in Ht.
          apply Forall_app in Ht as [Hmid Hrest].
          apply Forall_app. split; [exact Hmid|].
          inversion Hrest as [|? ? _ Hrest']; subst.
          inversion Hrest' as [|? ? _ Hrest'']; subst.
          apply Forall_app in Hrest'' as [Ha _].
          repeat constructor; assumption. }
      rewrite length_app in Hlen. simpl in Hlen. lia.
    + rewrite (replace_no_quote_dot (no_match_from_tail Ht Hm)).
      simpl. now rewrite Hm, (replace_no_quote_dot (no_match_from_tail Ht Hm)).
  - simpl. destruct (N.eqb_spec c QUOTATION_MARK); [contradiction|].
    now rewrite IH.
Qed.

End PatternMore.

Lemma no_quote_no_quote_dot (s : Js.string) :
  ~ In Js.QUOTATION_MARK s ->
  forall a b, s <> a ++ Js.QUOTATION_MARK :: Js.FULL_STOP :: b.
Proof.
  intros H a b E. apply H. rewrite E. apply in_or_app. right. now left.
Qed.

(** ** More properties of the converter *)

Section PropertiesMore.

Variables Symbol Identifier TypeNode TsType ModelType Context : Type.
Variable W : Collaborators Symbol Identifier TypeNode TsType ModelType Context.

Local Abbreviation Node := (TypeReferenceNode Identifier TypeNode).

(** X1.  On a use site with a name and a symbol, [supportsNode] returns
    false exactly when the stripped fully-qualified name and the text of
    the type name are equal or one of them ends with a full stop and the
    other: the shorter name is the longer one without outer
    qualification.  In every other case it returns true. *)
Theorem supportsNode_false_iff_suffix
    (c : Context) (node : Node) (type : TsType)
    (tn : EntityName Identifier) (sym : Symbol) :
  typeName node = Some tn -> symbol W type = Some sym ->
  let stripped := FqnPattern.replace (getFullyQualifiedName W c sym) in
  let text := getText W tn in
  (supportsNode W (Some node) (Some type) c = Normal (false, c) <->
   dotSuffix stripped text \/ dotSuffix text stripped) /\
  (supportsNode W (Some node) (Some type) c = Normal (true, c) <->
   ~ (dotSuffix stripped text \/ dotSuffix text stripped)).
Proof.
  intros Hn Hs stripped text.
  rewrite (supportsNode_compares W c node type Hn Hs).
  unfold symbolNameOf, nodeNameOf. fold stripped text.
  pose proof (namesDiffer_split stripped text) as H.
  destruct (namesDiffer (Js.split Js.FULL_STOP stripped)
                        (Js.split Js.FULL_STOP text)); split; split.
  - discriminate.
  - intro D. apply H in D. discriminate.
  - intros _ D. apply H in D. discriminate.
  - reflexivity.
  - intros _. now apply H.
  - reflexivity.
  - discriminate.
  - intro D. exfalso. apply D. now apply H.
Qed.

(** X6.  The module path of the symbol plays no part: when the
    fully-qualified name is a quoted segment without line terminator, a
    full stop and a rest in which no quotation mark is followed by a
    full stop, [supportsNode] compares the segments of that rest with the
    segments of the surface name, whatever the quoted segment holds, full
    stops included. *)
Theorem supportsNode_ignores_module_path
    (c : Context) (node : Node) (type : TsType)
    (tn : EntityName Identifier) (sym : Symbol) (m rest : Js.string) :
  typeName node = Some tn -> symbol W type = Some sym ->
  getFullyQualifiedName W c sym
  = Js.QUOTATION_MARK :: m ++ Js.QUOTATION_MARK :: Js.FULL_STOP :: rest ->
  Forall notLineTerminator m ->
  (forall a b, rest <> a ++ Js.QUOTATION_MARK :: Js.FULL_STOP :: b) ->
  supportsNode W (Some node) (Some type) c
  = Normal (namesDiffer (Js.split Js.FULL_STOP rest)
                        (Js.split Js.FULL_STOP (getText W tn)), c).
Proof.
  intros Hn Hs Hfqn Hm Hrest.
  rewrite (supportsNode_compares W c node type Hn Hs).
  unfold symbolNameOf, nodeNameOf.
  now rewrite Hfqn, (FqnPatternFacts.replace_leading_segment Hm Hrest).
Qed.

(** X7.  For a surface name written without a full stop, [supportsNode]
    returns true exactly when that name differs from the last segment of
    the symbol's stripped fully-qualified name. *)
Theorem supportsNode_unqualified_name
    (c : Context) (node : Node) (type : TsType)
    (tn : EntityName Identifier) (sym : Symbol) :
  typeName node = Some tn -> symbol W type = Some sym ->
  ~ In Js.FULL_STOP (getText W tn) ->
  supportsNode W (Some node) (Some type) c
  = Normal (negb (Js.string_eqb
                    (getText W tn)
                    (last (symbolNameOf (getFullyQualifiedName W c sym)) [])), c).
Proof.
  intros Hn Hs Hdot.
  rewrite (supportsNode_compares W c node type Hn Hs).
  do 2 f_equal. unfold nodeNameOf. rewrite (@JsFacts.split_piece Js.FULL_STOP _ Hdot).
  set (symbolName := symbolNameOf (getFullyQualifiedName W c sym)).
  assert (Hne : symbolName <> []) by apply JsFacts.split_nonempty.
  assert (Hlen : 1 <= List.length symbolName)
    by (destruct symbolName; [easy|simpl; lia]).
  unfold namesDiffer, Js.length.
  destruct (Z.eqb_spec (Z.of_nat (List.length symbolName)) 0); [lia|].
  cbn [List.length]. change (Z.of_nat 1 =? 0)%Z with false. cbv iota zeta.
  rewrite Z.min_r by lia.
  rewrite !JsFacts.slice_neg_trailing by lia.
  replace (trailing 1 symbolName) with [last symbolName []]
    by (symmetry; now apply SequenceFacts.trailing_one).
  reflexivity.
Qed.

(** X8.  A use site that [supportsNode] accepts can be converted: after
    a verdict of true the node is present, the context is as before, and
    [convertNode] returns a reference on that node from any context,
    without a throw. *)
Theorem supported_node_converts
    (node : option Node) (type : option TsType) (c c1 : Context) :
  supportsNode W node type c = Normal (true, c1) ->
  c1 = c /\
  exists n : Node,
    node = Some n /\
    forall c' : Context,
    exists (r : ReferenceType ModelType) (c'' : Context),
      convertNode W n c' = Normal (r, c'').
Proof.
  unfold supportsNode. destruct type as [t|], node as [n|]; try discriminate.
  destruct (typeName n) as [tn|] eqn:Hn; [|discriminate].
  intro H. split.
  - destruct (symbol W t); unfold bind, ctx_getFullyQualifiedName, ret in H;
      now inversion H.
  - exists n. split; [reflexivity|]. intro c'.
    rewrite (convertNode_named W c' n Hn). eexists; eexists.
    apply f_equal, surjective_pairing.
Qed.

(** X9.  A later conversion of the same node registers the same pair
    again: from a context in which the lookups answer as before, the
    conversion hands [saveRemainingSymbolReflection] the fully-qualified
    name and the target symbol of the first conversion, and leaves the
    removal of duplicates to it. *)
Theorem convertNode_again_registers_same_pair
    (c c' : Context) (node : Node) (tn : EntityName Identifier) (s : Symbol) :
  typeName node = Some tn ->
  resolvedTarget W c (identifierOf tn) = Some s ->
  sameAnswers W c c' ->
  exists r : ReferenceType ModelType,
    convertNode W node c'
    = Normal (r, afterTypeArguments W node
                   (saveRemainingSymbolReflection W
                      (getFullyQualifiedName W c s) s c')) /\
    ref_resolutionTarget r = getFullyQualifiedName W c s.
Proof.
  intros Hn Ht (Hsym & Hres & Hfqn).
  rewrite (convertNode_named W c' node Hn).
  unfold resolvedTarget in *. rewrite <- Hsym, <- Hres, Ht. cbv zeta.
  rewrite <- Hfqn. eexists. split; reflexivity.
Qed.

End PropertiesMore.

(** ** The further properties at the small program *)

Ltac not_in_string :=
  let H := fresh "H" in
  intro H; simpl in H; repeat (destruct H as [H|H]; [discriminate H|]); exact H.

Lemma supportsNode_false_iff_suffix_witness :
  let c : Demo.Context := [] in
  let stripped := FqnPattern.replace (Demo.getFullyQualifiedName c Demo.realClass) in
  let text :=
    Demo.getText (QualifiedName (IdentifierName "NS"%string) "RealClass"%string) in
  (supportsNode Demo.world (Some Demo.qualifiedUse) (Some (Some Demo.realClass)) c
   = Normal (false, c) <->
   dotSuffix stripped text \/ dotSuffix text stripped) /\
  (supportsNode Demo.world (Some Demo.qualifiedUse) (Some (Some Demo.realClass)) c
   = Normal (true, c) <->
   ~ (dotSuffix stripped text \/ dotSuffix text stripped)).
Proof.
  apply (@supportsNode_false_iff_suffix _ _ _ _ _ _ Demo.world []
           Demo.qualifiedUse (Some Demo.realClass)
           (QualifiedName (IdentifierName "NS"%string) "RealClass"%string)
           Demo.realClass);
    reflexivity.
Defined.

Lemma namesDiffer_ignores_outer_segments_witness :
  namesDiffer ([Js.of_string "X"] ++ [Js.of_string "Y"; Js.of_string "Z"])
              [Js.of_string "Y"; Js.of_string "W"]
  = namesDiffer [Js.of_string "Y"; Js.of_string "Z"]
                [Js.of_string "Y"; Js.of_string "W"].
Proof.
  apply (@namesDiffer_ignores_outer_segments
           [Js.of_string "X"] [Js.of_string "Y"; Js.of_string "Z"]
           [Js.of_string "Y"; Js.of_string "W"]); simpl; lia.
Defined.

Lemma replace_keeps_unquoted_start_witness :
  FqnPattern.replace (Js.of_string "A." ++ Demo.quoted "b" ++ Js.of_string ".C")
  = Js.of_string "A." ++ FqnPattern.replace (Demo.quoted "b" ++ Js.of_string ".C") /\
  FqnPattern.replace (Js.of_string "A.") = Js.of_string "A.".
Proof.
  apply (@replace_keeps_unquoted_start (Js.of_string "A.")
           (Demo.quoted "b" ++ Js.of_string ".C")).
  not_in_string.
Defined.

Lemma replace_idempotent_witness :
  FqnPattern.replace (FqnPattern.replace Demo.twoQuoted)
  = FqnPattern.replace Demo.twoQuoted.
Proof.
  apply (@replace_idempotent Demo.twoQuoted).
  repeat constructor.
Defined.

Lemma supportsNode_ignores_module_path_witness :
  supportsNode Demo.world (Some Demo.aliasUse) (Some (Some Demo.realClass)) []
  = Normal (namesDiffer (Js.split Js.FULL_STOP (Js.of_string "NS.RealClass"))
                        (Js.split Js.FULL_STOP (Js.of_string "Alias")), []).
Proof.
  apply (@supportsNode_ignores_module_path _ _ _ _ _ _ Demo.world []
           Demo.aliasUse (Some Demo.realClass) (IdentifierName "Alias"%string)
           Demo.realClass (Js.of_string "mod") (Js.of_string "NS.RealClass")).
  - reflexivity.
  - reflexivity.
  - reflexivity.
  - repeat constructor.
  - apply no_quote_no_quote_dot. not_in_string.
Defined.

Lemma supportsNode_unqualified_name_witness :
  supportsNode Demo.world (Some Demo.aliasUse) (Some (Some Demo.realClass)) []
  = Normal (negb (Js.string_eqb
                    (Js.of_string "Alias")
                    (last (symbolNameOf (Demo.getFullyQualifiedName [] Demo.realClass))
                          [])), []).
Proof.
  apply (@supportsNode_unqualified_name _ _ _ _ _ _ Demo.world []
           Demo.aliasUse (Some Demo.realClass) (IdentifierName "Alias"%string)
           Demo.realClass).
  - reflexivity.
  - reflexivity.
  - not_in_string.
Defined.

Lemma supported_node_converts_witness :
  @nil (Js.string * Demo.Symbol) = [] /\
  exists n : TypeReferenceNode Demo.Identifier Demo.TypeNode,
    Some Demo.aliasUse = Some n /\
    forall c' : Demo.Context,
    exists (r : ReferenceType Demo.ModelType) (c'' : Demo.Context),
      convertNode Demo.world n c' = Normal (r, c'').
Proof.
  apply (@supported_node_converts _ _ _ _ _ _ Demo.world
           (Some Demo.aliasUse) (Some (Some Demo.realClass)) [] []).
  reflexivity.
Defined.

Lemma convertNode_again_registers_same_pair_witness :
  let queued := [(Demo.getFullyQualifiedName [] Demo.realClass, Demo.realClass)] in
  exists r : ReferenceType Demo.ModelType,
    convertNode Demo.world Demo.aliasUse queued
    = Normal (r, afterTypeArguments Demo.world Demo.aliasUse
                   (Demo.saveRemainingSymbolReflection
                      (Demo.getFullyQualifiedName [] Demo.realClass)
                      Demo.realClass queued)) /\
    ref_resolutionTarget r = Demo.getFullyQualifiedName [] Demo.realClass.
Proof.
  apply (@convertNode_again_registers_same_pair _ _ _ _ _ _ Demo.world []
           [(Demo.getFullyQualifiedName [] Demo.realClass, Demo.realClass)]
           Demo.aliasUse (IdentifierName "Alias"%string) Demo.realClass).
  - reflexivity.
  - reflexivity.
  - repeat split.
Defined.

(** Across a line terminator one pass is not enough: the pattern does
    not reach the second quoted segment from the first, and finds it in
    the next pass. *)
Example replace_twice_across_lines :
  let s := Demo.quoted "a" ++ Js.FULL_STOP :: 10%N :: Demo.quoted "b"
           ++ Js.of_string ".c" in
  FqnPattern.replace s = 10%N :: Demo.quoted "b" ++ Js.of_string ".c" /\
  FqnPattern.replace (FqnPattern.replace s) = 10%N :: Js.of_string "c".
Proof. split; reflexivity. Qed.
